(** * Cloudflare firewall analytics: GraphQL client, summaries, time windows

    A shallow embedding of [receiver/cloudflarereceiver/poc]:
    - [graphql_client.go]: [Query] and [GetFirewallEvents];
    - [main.go]: the per-dimension summaries and the top-10 ranking;
    and of the time-window tracker of the design, which has no source file.

    Go's [int64] is a [Z] with the two's complement wrap-around written out,
    a Go [map[string]int64] is a [gmap string Z], slices are lists indexed
    with stdpp's lookup and insert, and a function returning a pointer and an
    [error] returns a [Result T]. *)

From Stdlib Require Import ZArith List Lia Sorted.
From stdpp Require Import base gmap strings list fin_maps.

Local Open Scope Z_scope.

(* ===================================================================== *)
(** ** 64-bit signed integers *)
(* ===================================================================== *)

Module Int64.

Definition modulus : Z := 18446744073709551616.   (* 2^64 *)
Definition min_int : Z := -9223372036854775808.   (* -2^63 *)
Definition max_int : Z := 9223372036854775807.    (* 2^63 - 1 *)

Definition in_range (z : Z) : Prop := min_int <= z <= max_int.

(** The value an [int64] variable holds after an arithmetic result [z]. *)
Definition wrap (z : Z) : Z := (z - min_int) mod modulus + min_int.

(** Go's [a + b] (and [a += b]) on [int64]: silent wrap-around. *)
Definition add (a b : Z) : Z := wrap (a + b).

End Int64.

(* ===================================================================== *)
(** ** Data model ([graphql_client.go]) *)
(* ===================================================================== *)

Abbreviation Bytes := (list Byte.byte).

Record GraphQLClient := { apiToken : string }.

(** [Variables] is a [map[string]interface{}]; the values the program puts
    there are strings and RFC3339 renderings of instants.  An RFC3339 text
    is represented by the instant it denotes, in whole seconds since the
    Unix epoch. *)
Inductive Var :=
  | VString (s : string)
  | VTimeRFC3339 (seconds : Z).

Record GraphQLRequest := {
  Query_ : string;
  Variables : gmap string Var
}.

Record GraphQLError := { Message : string; Path : list string }.

Record GraphQLResponse := {
  Data : Bytes;                      (* json.RawMessage *)
  Errors : list GraphQLError
}.

Record Dimensions_ := {
  Action : string;
  Source : string;
  ClientCountryName : string
}.

Record FirewallEventsAdaptiveGroup := {
  Count : Z;                         (* int64 *)
  Dimensions : Dimensions_
}.

Record Zone := {
  FirewallEventsAdaptiveGroups : list FirewallEventsAdaptiveGroup
}.

(** [FirewallEventsResponse]: the [Viewer] struct has the one field
    [Zones]. *)
Record FirewallEventsResponse := { Zones : list Zone }.

(** The errors the client returns, one constructor per [fmt.Errorf]. *)
Inductive Error :=
  | ErrMarshalRequest
  | ErrCreateRequest
  | ErrExecuteRequest
  | ErrReadResponse
  | ErrUnexpectedStatusCode (code : Z) (body : Bytes)
  | ErrDecodeResponse
  | ErrGraphqlErrors (errs : list GraphQLError)
  | ErrUnmarshalFirewallEvents.

(** A Go result pair, pointer and [error]: every [return] of the client is
    either [return &v, nil] or [return nil, err]. *)
Inductive Result (T : Type) :=
  | Ok (v : T)
  | Err (e : Error).
Arguments Ok {T} v.
Arguments Err {T} e.

Definition data_of {T} (r : Result T) : option T :=
  match r with Ok v => Some v | Err _ => None end.

Definition err_of {T} (r : Result T) : option Error :=
  match r with Ok _ => None | Err e => Some e end.

(* ===================================================================== *)
(** ** The HTTP transport and the JSON codec *)
(* ===================================================================== *)

Record HttpRequest := {
  Method : string;
  URL : string;
  Header : list (string * string);
  RequestBody : Bytes
}.

(** What [httpClient.Do] followed by [io.ReadAll(resp.Body)] yields. *)
Record HttpResponse := {
  StatusCode : Z;
  Body : option Bytes                (* [None]: reading the body fails *)
}.

Inductive DoResult :=
  | DoError                          (* [Do] returns an error *)
  | DoResponse (resp : HttpResponse).

(** The library functions the client calls.  [Do n req] is the answer of
    the network to the [n]-th request sent (counting from 0). *)
Record Runtime := {
  json_Marshal : GraphQLRequest -> option Bytes;
  http_NewRequest : string -> string -> Bytes -> option HttpRequest;
  Do : nat -> HttpRequest -> DoResult;
  json_Unmarshal_GraphQLResponse : Bytes -> option GraphQLResponse;
  json_Unmarshal_FirewallEventsResponse :
    Bytes -> option FirewallEventsResponse;
  json_MarshalIndent : list FirewallEventsAdaptiveGroup -> option string;
  (** the order in which a [range] over a map visits its entries *)
  range_order : gmap string Z -> list (string * Z)
}.

Definition cloudflareGraphQLEndpoint : string :=
  "https://api.cloudflare.com/client/v4/graphql".

Definition http_StatusOK : Z := 200.

Definition set_headers (c : GraphQLClient) (req : HttpRequest) : HttpRequest :=
  {| Method := Method req;
     URL := URL req;
     Header := Header req ++
               [("Authorization"%string, ("Bearer " +:+ apiToken c)%string);
                ("Content-Type"%string, "application/json"%string)];
     RequestBody := RequestBody req |}.

(* ===================================================================== *)
(** ** [Query] *)
(* ===================================================================== *)

(** [Query] threads the number of requests sent so far: it returns the
    result together with the new count.  The [debug] prints do not
    influence the result and are left out. *)
Definition Query (rt : Runtime) (c : GraphQLClient) (query : string)
    (vars : gmap string Var) (debug : bool) (sent : nat)
    : Result GraphQLResponse * nat :=
  let req := {| Query_ := query; Variables := vars |} in
  match json_Marshal rt req with
  | None => (Err ErrMarshalRequest, sent)
  | Some body =>
    match http_NewRequest rt "POST" cloudflareGraphQLEndpoint body with
    | None => (Err ErrCreateRequest, sent)
    | Some httpReq =>
      let httpReq := set_headers c httpReq in
      match Do rt sent httpReq with
      | DoError => (Err ErrExecuteRequest, S sent)
      | DoResponse resp =>
        match Body resp with
        | None => (Err ErrReadResponse, S sent)
        | Some bodyBytes =>
          if negb (StatusCode resp =? http_StatusOK) then
            (Err (ErrUnexpectedStatusCode (StatusCode resp) bodyBytes), S sent)
          else
            match json_Unmarshal_GraphQLResponse rt bodyBytes with
            | None => (Err ErrDecodeResponse, S sent)
            | Some result =>
              if (0 <? length (Errors result))%nat then
                (Err (ErrGraphqlErrors (Errors result)), S sent)
              else (Ok result, S sent)
            end
        end
      end
    end
  end.

(* ===================================================================== *)
(** ** [GetFirewallEvents] *)
(* ===================================================================== *)

(** Instants ([time.Time]) are nanoseconds since the Unix epoch. *)
Definition Second : Z := 1000000000.
Definition Hour : Z := 3600 * Second.

(** [t.Format(time.RFC3339)]: the layout has no fractional seconds, so the
    text denotes the whole second [t] lies in. *)
Definition Format_RFC3339 (t : Z) : Var := VTimeRFC3339 (t / Second).

(** The filter of the query text, clause by clause: the field
    [datetime_geq] keeps the events whose [datetime] is at or after the
    argument, [datetime_leq] those at or before it. *)
Inductive FilterOp := datetime_geq | datetime_leq.

Record AnalyticsQuery := {
  filter : list (FilterOp * string);     (* operator, variable name *)
  limit : nat;
  orderBy : list string
}.

(** The structure of the query text of [GetFirewallEvents]. *)
Definition firewallEventsQuery : AnalyticsQuery :=
  {| filter := [(datetime_geq, "since"%string); (datetime_leq, "until"%string)];
     limit := 100;
     orderBy := ["count_DESC"%string] |}.

(** The query text itself (whitespace normalised); the client treats it as
    an opaque string. *)
Definition firewallEventsQueryText : string :=
  "query FirewallEventsByAction($zoneTag: String!, $since: Time!, $until: Time!) { viewer { zones(filter: { zoneTag: $zoneTag }) { firewallEventsAdaptiveGroups( filter: { datetime_geq: $since, datetime_leq: $until }, limit: 100, orderBy: [count_DESC] ) { count dimensions { action source clientCountryName } } } } }".

Definition firewallEventsVars (zoneID : string) (since until : Z)
    : gmap string Var :=
  <["until"%string := Format_RFC3339 until]>
    (<["since"%string := Format_RFC3339 since]>
      (<["zoneTag"%string := VString zoneID]> ∅)).

Definition GetFirewallEvents (rt : Runtime) (c : GraphQLClient)
    (zoneID : string) (since until : Z) (debug : bool) (sent : nat)
    : Result FirewallEventsResponse * nat :=
  let vars := firewallEventsVars zoneID since until in
  match Query rt c firewallEventsQueryText vars debug sent with
  | (Err err, sent') => (Err err, sent')
  | (Ok resp, sent') =>
    match json_Unmarshal_FirewallEventsResponse rt (Data resp) with
    | None => (Err ErrUnmarshalFirewallEvents, sent')
    | Some result => (Ok result, sent')
    end
  end.

(** *** What the filter selects *)

(** One clause against an event whose [datetime] is the instant [t]
    (nanoseconds); a clause whose variable is unbound or not a time selects
    nothing. *)
Definition clause_holds (vars : gmap string Var) (t : Z)
    (cl : FilterOp * string) : bool :=
  match vars !! cl.2 with
  | Some (VTimeRFC3339 s) =>
    match cl.1 with
    | datetime_geq => s * Second <=? t
    | datetime_leq => t <=? s * Second
    end
  | _ => false
  end.

Definition selects (q : AnalyticsQuery) (vars : gmap string Var) (t : Z) : bool :=
  forallb (clause_holds vars t) (filter q).

(** The events counted by the query [GetFirewallEvents] sends for the
    window [since], [until]. *)
Definition window_counts (since until t : Z) : bool :=
  selects firewallEventsQuery (firewallEventsVars ""%string since until) t.

(* ===================================================================== *)
(** ** [main]: summaries by dimension *)
(* ===================================================================== *)

(** One iteration of a summary loop,
    [counts[key(event)] += event.Count]: a missing key reads as [0]. *)
Definition add_count `{Countable K} (key : FirewallEventsAdaptiveGroup -> K)
    (counts : gmap K Z) (event : FirewallEventsAdaptiveGroup) : gmap K Z :=
  <[key event := Int64.add (default 0 (counts !! key event)) (Count event)]>
    counts.

(** [counts := make(map[K]int64); for _, event := range events { ... }]. *)
Definition count_by `{Countable K} (key : FirewallEventsAdaptiveGroup -> K)
    (events : list FirewallEventsAdaptiveGroup) : gmap K Z :=
  fold_left (add_count key) events ∅.

Definition actionCounts (events : list FirewallEventsAdaptiveGroup)
    : gmap string Z :=
  count_by (fun event => Action (Dimensions event)) events.

Definition sourceCounts (events : list FirewallEventsAdaptiveGroup)
    : gmap string Z :=
  count_by (fun event => Source (Dimensions event)) events.

Definition countryCounts (events : list FirewallEventsAdaptiveGroup)
    : gmap string Z :=
  count_by (fun event => ClientCountryName (Dimensions event)) events.

(** The exact, unbounded sums the summaries are measured against. *)
Definition total_count (events : list FirewallEventsAdaptiveGroup) : Z :=
  foldr (fun event acc => Count event + acc) 0 events.

Definition key_total `{Countable K} (key : FirewallEventsAdaptiveGroup -> K)
    (k : K) (events : list FirewallEventsAdaptiveGroup) : Z :=
  total_count (List.filter (fun event => bool_decide (key event = k)) events).

Definition has_key `{Countable K} (key : FirewallEventsAdaptiveGroup -> K)
    (k : K) (events : list FirewallEventsAdaptiveGroup) : bool :=
  existsb (fun event => bool_decide (key event = k)) events.

(** Sum of the counts of the groups of a summary. *)
Definition sum_counts `{Countable K} (counts : gmap K Z) : Z :=
  map_fold (fun _ c acc => c + acc) 0 counts.

(* ===================================================================== *)
(** ** [main]: the top-10 ranking *)
(* ===================================================================== *)

Record countryCount := { country : string; count : Z }.

(** [for country, count := range countryCounts { countries = append(...) }]
    in the order [order] visits the map. *)
Definition collect (order : gmap string Z -> list (string * Z))
    (counts : gmap string Z) : list countryCount :=
  List.map (fun kv => {| country := kv.1; count := kv.2 |}) (order counts).

(** The body of the inner loop:
    [if countries[j].count > countries[i].count { swap i, j }].
    Inside the loops both indices are in range. *)
Definition compare_swap (countries : list countryCount) (i j : nat)
    : list countryCount :=
  match countries !! i, countries !! j with
  | Some ci, Some cj =>
    if count cj >? count ci then <[j := ci]> (<[i := cj]> countries)
    else countries
  | _, _ => countries
  end.

(** [for j := ...; j < len(countries); j++], with [n] iterations left. *)
Fixpoint inner_loop (n : nat) (countries : list countryCount) (i j : nat)
    : list countryCount :=
  match n with
  | O => countries
  | S n' => inner_loop n' (compare_swap countries i j) i (S j)
  end.

(** [for i := ...; i < len(countries); i++], with [n] iterations left. *)
Fixpoint outer_loop (n : nat) (countries : list countryCount) (i : nat)
    : list countryCount :=
  match n with
  | O => countries
  | S n' =>
    outer_loop n'
      (inner_loop (length countries - S i) countries i (S i)) (S i)
  end.

Definition bubble_sort (countries : list countryCount) : list countryCount :=
  outer_loop (length countries) countries 0.

(** [max := len(countries); if max > 10 { max = 10 }] and the lines printed
    by the last loop. *)
Definition top10 (countries : list countryCount) : list countryCount :=
  let max := length countries in
  let max := if (10 <? max)%nat then 10%nat else max in
  take max countries.

Definition topCountries (order : gmap string Z -> list (string * Z))
    (events : list FirewallEventsAdaptiveGroup) : list countryCount :=
  top10 (bubble_sort (collect order (countryCounts events))).

(* ===================================================================== *)
(** ** [main] *)
(* ===================================================================== *)

(** What [main] writes to standard output, line by line. *)
Inductive Line :=
  | MissingToken
  | MissingZoneID
  | Banner (zoneID : string) (since until : Var) (debug : bool)
  | ErrorFetching (e : Error)
  | NoZonesFound
  | Found (n : nat)
  | ErrorFormatting
  | PrettyJSON (s : string)
  | SummaryByAction
  | SummaryBySource
  | TopCountries
  | CountLine (label : string) (c : Z)
  | Completed.

Record Exit := { stdout : list Line; code : Z }.

Definition count_lines (entries : list (string * Z)) : list Line :=
  List.map (fun kv => CountLine kv.1 kv.2) entries.

Definition country_lines (cs : list countryCount) : list Line :=
  List.map (fun c => CountLine (country c) (count c)) cs.

(** The part of [main] after a successful [GetFirewallEvents]. *)
Definition report (rt : Runtime) (result : FirewallEventsResponse) : Exit :=
  match Zones result with
  | [] => {| stdout := [NoZonesFound]; code := 0 |}
  | zone :: _ =>
    let events := FirewallEventsAdaptiveGroups zone in
    match json_MarshalIndent rt events with
    | None => {| stdout := [Found (length events); ErrorFormatting]; code := 1 |}
    | Some prettyJSON =>
      {| stdout :=
           [Found (length events); PrettyJSON prettyJSON; SummaryByAction]
           ++ count_lines (range_order rt (actionCounts events))
           ++ [SummaryBySource]
           ++ count_lines (range_order rt (sourceCounts events))
           ++ [TopCountries]
           ++ country_lines (topCountries (range_order rt) events)
           ++ [Completed];
         code := 0 |}
    end
  end.

(** [main], given the environment variables and the clock reading.  (An
    earlier revision of [main.go], without the debug flag, looks back one
    hour instead of ten; the rest is the same.) *)
Definition main (rt : Runtime) (CF_API_TOKEN CF_ZONE_ID DEBUG : string)
    (now : Z) : Exit :=
  let apiToken := CF_API_TOKEN in
  let zoneID := CF_ZONE_ID in
  let debug := bool_decide (DEBUG = "true"%string) in
  if bool_decide (apiToken = ""%string) then
    {| stdout := [MissingToken]; code := 1 |}
  else if bool_decide (zoneID = ""%string) then
    {| stdout := [MissingZoneID]; code := 1 |}
  else
    let client := {| apiToken := apiToken |} in
    let until := now in
    let since := until + (-10) * Hour in
    let banner :=
      Banner zoneID (Format_RFC3339 since) (Format_RFC3339 until) debug in
    match GetFirewallEvents rt client zoneID since until debug 0 with
    | (Err err, _) => {| stdout := [banner; ErrorFetching err]; code := 1 |}
    | (Ok result, _) =>
      let r := report rt result in
      {| stdout := banner :: stdout r; code := code r |}
    end.

(* ===================================================================== *)
(** ** Time windows and checkpoints *)
(* ===================================================================== *)

(** The proof of concept queries one fixed look-back window per run and
    keeps no checkpoint; the tracker below follows the design text. *)
Module TimeWindowTracker.

(** Modelled from the spec: the TimeWindow of the data model, the
    half-open range from [since] (inclusive) to [until] (exclusive); no
    source file declares it. *)
Record TimeWindow := { since : Z; until : Z }.

Definition contains (w : TimeWindow) (t : Z) : bool :=
  (since w <=? t) && (t <? until w).

Inductive Next :=
  | Skip
  | Window (w : TimeWindow).

(** Modelled from the spec: [nextWindow] of the TimeWindowTracker, which
    no source file implements.  First call for a zone:
    [since = now - configuredLookback], [until = now]; later calls:
    [since = checkpoint[zone]], [until = now]; [Skip] when
    [now <= checkpoint[zone]]. *)
Definition nextWindow (lookback : Z) (checkpoint : gmap string Z)
    (zone : string) (now : Z) : Next :=
  match checkpoint !! zone with
  | None => Window {| since := now - lookback; until := now |}
  | Some c =>
    if now <=? c then Skip
    else Window {| since := c; until := now |}
  end.

(** Modelled from the spec: how the sub-pipeline of one zone ends a cycle
    (skipped, failed, or done with its emitted points); no source file
    declares it. *)
Inductive ZoneResult (Points : Type) :=
  | Skipped
  | Failed (w : TimeWindow)
  | Done (w : TimeWindow) (points : Points).
Arguments Skipped {Points}.
Arguments Failed {Points} w.
Arguments Done {Points} w points.

(** Modelled from the spec: the per-zone sub-pipeline of ScrapeCycle,
    which no source file implements.  [pipeline w] is the outcome of
    fetching, aggregating and emitting the window [w] in this cycle
    ([None]: any error).  The checkpoint is written after a successful
    emission and left unchanged otherwise. *)
Definition scrapeZone {Points} (lookback : Z)
    (pipeline : TimeWindow -> option Points)
    (checkpoint : gmap string Z) (zone : string) (now : Z)
    : gmap string Z * ZoneResult Points :=
  match nextWindow lookback checkpoint zone now with
  | Skip => (checkpoint, Skipped)
  | Window w =>
    match pipeline w with
    | None => (checkpoint, Failed w)
    | Some points => (<[zone := until w]> checkpoint, Done w points)
    end
  end.

(** Modelled from the spec: successive cycles for one zone, each with its
    clock reading and the behaviour of the sub-pipeline in that cycle. *)
Fixpoint run {Points} (lookback : Z) (zone : string)
    (cycles : list (Z * (TimeWindow -> option Points)))
    (checkpoint : gmap string Z)
    : gmap string Z * list (ZoneResult Points) :=
  match cycles with
  | [] => (checkpoint, [])
  | (now, pipeline) :: rest =>
    let '(checkpoint', r) :=
      scrapeZone lookback pipeline checkpoint zone now in
    let '(final, rs) := run lookback zone rest checkpoint' in
    (final, r :: rs)
  end.

(** The windows issued, in order. *)
Definition issued {Points} (rs : list (ZoneResult Points))
    : list TimeWindow :=
  omap (fun r => match r with
                 | Skipped => None
                 | Failed w => Some w
                 | Done w _ => Some w
                 end) rs.

Definition succeeded {Points} (r : ZoneResult Points) : bool :=
  match r with Failed _ => false | _ => true end.

(** In how many of the windows [ws] the instant [t] lies. *)
Definition coverage (ws : list TimeWindow) (t : Z) : nat :=
  length (List.filter (fun w => contains w t) ws).

(** Modelled from the spec: consecutive windows are contiguous and
    non-empty, the first one starting at [start]. *)
Fixpoint chained (start : Z) (ws : list TimeWindow) : Prop :=
  match ws with
  | [] => True
  | w :: ws' => since w = start /\ since w < until w /\ chained (until w) ws'
  end.

(** The [until] of the last window of a chain that starts at [start]. *)
Fixpoint end_of (start : Z) (ws : list TimeWindow) : Z :=
  match ws with
  | [] => start
  | w :: ws' => end_of (until w) ws'
  end.

(** A cycle that fails, then one that succeeds. *)
Definition failing_then_ok : list (Z * (TimeWindow -> option unit)) :=
  [(200, fun _ => None); (300, fun _ => Some tt)].

Definition three_ok : list (Z * (TimeWindow -> option unit)) :=
  [(100, fun _ => Some tt); (160, fun _ => Some tt); (220, fun _ => Some tt)].

End TimeWindowTracker.

(* ===================================================================== *)
(** ** Auxiliary definitions and sample inputs *)
(* ===================================================================== *)

(** Every count of a summary is non-negative. *)
Definition nonneg_counts `{Countable K} (counts : gmap K Z) : Prop :=
  forall k v, counts !! k = Some v -> 0 <= v.

(** The inner loop as a function on the slice after position [i]: the
    largest count seen so far travels in [x], the displaced entries stay
    behind in order. *)
Fixpoint sift (x : countryCount) (rest : list countryCount)
    : countryCount * list countryCount :=
  match rest with
  | [] => (x, [])
  | y :: rest' =>
    if count y >? count x
    then let '(m, r) := sift y rest' in (m, x :: r)
    else let '(m, r) := sift x rest' in (m, y :: r)
  end.

Definition count_ge (a b : countryCount) : Prop := count b <= count a.
Definition count_gt (a b : countryCount) : Prop := count b < count a.

(** The request [Query] hands to [httpClient.Do], when it gets that far. *)
Definition built_request (rt : Runtime) (c : GraphQLClient) (query : string)
    (vars : gmap string Var) : option HttpRequest :=
  match json_Marshal rt {| Query_ := query; Variables := vars |} with
  | None => None
  | Some body =>
    match http_NewRequest rt "POST" cloudflareGraphQLEndpoint body with
    | None => None
    | Some httpReq => Some (set_headers c httpReq)
    end
  end.

(** A clean answer: status 200, a body that decodes to [r], and no payload
    errors in [r]. *)
Definition clean_answer (rt : Runtime) (c : GraphQLClient) (query : string)
    (vars : gmap string Var) (sent : nat) (r : GraphQLResponse) : Prop :=
  exists httpReq bodyBytes,
    built_request rt c query vars = Some httpReq /\
    Do rt sent httpReq =
      DoResponse {| StatusCode := 200; Body := Some bodyBytes |} /\
    json_Unmarshal_GraphQLResponse rt bodyBytes = Some r /\
    Errors r = [].

(** The answers the retry policy of the design calls transient: a transport
    failure, HTTP 429 and HTTP 5xx. *)
Definition transient (d : DoResult) : bool :=
  match d with
  | DoError => true
  | DoResponse resp =>
    (StatusCode resp =? 429) ||
    ((500 <=? StatusCode resp) && (StatusCode resp <=? 599))
  end.

Definition sample_client : GraphQLClient := {| apiToken := "token" |}.

Definition clean_response : GraphQLResponse := {| Data := []; Errors := [] |}.

(** A runtime whose network answers [answers n] to the [n]-th request,
    whose decoder yields [decoded] and whose maps are ranged over in the
    order [order]. *)
Definition scripted_runtime (answers : nat -> DoResult)
    (decoded : FirewallEventsResponse)
    (order : gmap string Z -> list (string * Z)) : Runtime :=
  {| json_Marshal := fun _ => Some [];
     http_NewRequest := fun m u b =>
       Some {| Method := m; URL := u; Header := []; RequestBody := b |};
     Do := fun n _ => answers n;
     json_Unmarshal_GraphQLResponse := fun _ => Some clean_response;
     json_Unmarshal_FirewallEventsResponse := fun _ => Some decoded;
     json_MarshalIndent := fun _ => Some ""%string;
     range_order := order |}.

Definition status_answer (status : Z) : DoResult :=
  DoResponse {| StatusCode := status; Body := Some [] |}.

(** HTTP 500 to the first request, a clean 200 from then on. *)
Definition flaky_answers (n : nat) : DoResult :=
  match n with
  | O => status_answer 500
  | S _ => status_answer 200
  end.

Definition flaky_runtime : Runtime :=
  scripted_runtime flaky_answers {| Zones := [] |} map_to_list.

Definition group (action source country : string) (c : Z)
    : FirewallEventsAdaptiveGroup :=
  {| Count := c;
     Dimensions := {| Action := action; Source := source;
                      ClientCountryName := country |} |}.

(** The instant a query variable stands for after [Format_RFC3339]. *)
Definition whole_second (t : Z) : Z := t / Second * Second.

(** Exactly as many rows as the query's [limit]. *)
Definition capped_rows : list FirewallEventsAdaptiveGroup :=
  repeat (group "block" "waf" "US" 1) 100.

Definition capped_response : FirewallEventsResponse :=
  {| Zones := [{| FirewallEventsAdaptiveGroups := capped_rows |}] |}.

Definition capped_runtime : Runtime :=
  scripted_runtime (fun _ => status_answer 200) capped_response map_to_list.

Definition overflowing_events : list FirewallEventsAdaptiveGroup :=
  [group "block" "waf" "US" 9223372036854775807; group "block" "waf" "DE" 1].

Definition sample_events : list FirewallEventsAdaptiveGroup :=
  [group "block" "waf" "US" 5; group "block" "waf" "DE" 3;
   group "allow" "waf" "US" 2].

Definition by_action (event : FirewallEventsAdaptiveGroup) : string :=
  Action (Dimensions event).

(** Two labels with the same count. *)
Definition tied_events : list FirewallEventsAdaptiveGroup :=
  [group "block" "waf" "US" 5; group "block" "waf" "DE" 5].

Definition reverse_order (m : gmap string Z) : list (string * Z) :=
  rev (map_to_list m).

(** A response with a second zone entry. *)
Definition two_zone_response : FirewallEventsResponse :=
  {| Zones := [{| FirewallEventsAdaptiveGroups := sample_events |};
               {| FirewallEventsAdaptiveGroups := tied_events |}] |}.

Definition two_zone_runtime : Runtime :=
  scripted_runtime (fun _ => status_answer 200) two_zone_response map_to_list.

(* ===================================================================== *)
(** ** [Query]: the debug output *)
(* ===================================================================== *)

(** What [Query] prints when [debug] is set, line by line. *)
Inductive DebugLine :=
  | DebugRequest
  | DebugEndpoint (url : string)
  | DebugToken (head tail : string) (tokenLen : nat)
  | DebugTokenTooShort (tokenLen : nat)
  | DebugVariables (vars : gmap string Var)
  | DebugResponse
  | DebugStatusCode (status : Z)
  | DebugResponseBody (body : Bytes).

(** The line for the API token: [c.apiToken[:5]], [c.apiToken[tokenLen-5:]]
    and the length when [tokenLen > 10], the length alone otherwise. *)
Definition debug_token_line (c : GraphQLClient) : DebugLine :=
  let tokenLen := String.length (apiToken c) in
  if (10 <? tokenLen)%nat then
    DebugToken (String.substring 0 5 (apiToken c))
               (String.substring (tokenLen - 5) 5 (apiToken c)) tokenLen
  else DebugTokenTooShort tokenLen.

Definition debug_request_lines (c : GraphQLClient) (vars : gmap string Var)
    : list DebugLine :=
  [DebugRequest; DebugEndpoint cloudflareGraphQLEndpoint;
   debug_token_line c; DebugVariables vars].

(** The prints of [Query], along the same path as [Query] itself: the
    request block after the request is marshalled, the response block once
    the body has been read. *)
Definition Query_debug_output (rt : Runtime) (c : GraphQLClient)
    (query : string) (vars : gmap string Var) (debug : bool) (sent : nat)
    : list DebugLine :=
  let req := {| Query_ := query; Variables := vars |} in
  match json_Marshal rt req with
  | None => []
  | Some body =>
    let printed := if debug then debug_request_lines c vars else [] in
    match http_NewRequest rt "POST" cloudflareGraphQLEndpoint body with
    | None => printed
    | Some httpReq =>
      match Do rt sent (set_headers c httpReq) with
      | DoError => printed
      | DoResponse resp =>
        match Body resp with
        | None => printed
        | Some bodyBytes =>
          printed ++
          (if debug then
             [DebugResponse; DebugStatusCode (StatusCode resp);
              DebugResponseBody bodyBytes]
           else [])
        end
      end
    end
  end.

(** What a debug line shows of the token [token]: nothing, or a head and a
    tail of five bytes each around a hidden, non-empty middle. *)
Definition masks_token (token : string) (line : DebugLine) : Prop :=
  match line with
  | DebugToken head tail tokenLen =>
    tokenLen = String.length token /\
    exists hidden,
      token = (head +:+ hidden +:+ tail)%string /\
      String.length head = 5%nat /\ String.length tail = 5%nat /\
      (1 <= String.length hidden)%nat
  | DebugTokenTooShort tokenLen =>
    tokenLen = String.length token /\ (tokenLen <= 10)%nat
  | _ => True
  end.

(* ===================================================================== *)
(** * Properties *)
(* ===================================================================== *)

Module Int64Facts.
Import Int64.

Lemma modulus_pos : 0 < modulus.
Proof. reflexivity. Qed.

Lemma wrap_shift (z : Z) : exists k, wrap z = z + k * modulus.
Proof.
  unfold wrap. exists (- ((z - min_int) / modulus)).
  pose proof (Z.div_mod (z - min_int) modulus) as E.
  pose proof modulus_pos.
  generalize dependent ((z - min_int) / modulus).
  generalize dependent ((z - min_int) mod modulus).
  intros r q E. nia.
Qed.

Lemma wrap_in_range (z : Z) : in_range (wrap z).
Proof.
  unfold in_range, wrap.
  pose proof (Z.mod_pos_bound (z - min_int) modulus modulus_pos) as B.
  generalize dependent ((z - min_int) mod modulus). intros r B.
  unfold min_int, max_int, modulus in *. lia.
Qed.

Lemma wrap_id (z : Z) : in_range z -> wrap z = z.
Proof.
  unfold in_range, wrap. intros Hz.
  rewrite Z.mod_small; [lia|].
  unfold min_int, max_int, modulus in *. lia.
Qed.

Lemma wrap_eq_mod (a b : Z) : a mod modulus = b mod modulus -> wrap a = wrap b.
Proof.
  intros E. unfold wrap.
  rewrite <- (Zminus_mod_idemp_l a), <- (Zminus_mod_idemp_l b), E. reflexivity.
Qed.

Lemma wrap_mod (z : Z) : wrap z mod modulus = z mod modulus.
Proof.
  destruct (wrap_shift z) as [k ->]. apply Z_mod_plus_full.
Qed.

Lemma wrap_add_l (a b : Z) : wrap (wrap a + b) = wrap (a + b).
Proof.
  apply wrap_eq_mod. rewrite <- Zplus_mod_idemp_l, wrap_mod, Zplus_mod_idemp_l.
  reflexivity.
Qed.

Lemma add_unfold (a b : Z) : add a b = wrap (a + b).
Proof. reflexivity. Qed.

Lemma add_add_swap (d a b : Z) : add (add d a) b = add (add d b) a.
Proof.
  unfold add. rewrite (wrap_add_l (d + a) b), (wrap_add_l (d + b) a).
  replace (d + b + a) with (d + a + b) by lia. reflexivity.
Qed.
End Int64Facts.

#[global] Opaque Int64.wrap Int64.add.

Section Aggregation.
Context `{Countable K}.
Variable key : FirewallEventsAdaptiveGroup -> K.

Implicit Types (counts : gmap K Z) (event : FirewallEventsAdaptiveGroup)
  (events : list FirewallEventsAdaptiveGroup) (k : K).

Lemma add_count_lookup counts event k :
  add_count key counts event !! k =
    if decide (key event = k)
    then Some (Int64.add (default 0 (counts !! k)) (Count event))
    else counts !! k.
Proof.
  unfold add_count. rewrite lookup_insert.
  destruct (decide (key event = k)) as [->|]; reflexivity.
Qed.

Lemma add_count_swap counts e1 e2 :
  add_count key (add_count key counts e1) e2 =
  add_count key (add_count key counts e2) e1.
Proof.
  apply map_eq. intros k. rewrite !add_count_lookup.
  destruct (decide (key e1 = k)) as [E1|N1], (decide (key e2 = k)) as [E2|N2].
  - cbn [from_option id]. rewrite Int64Facts.add_add_swap. reflexivity.
  - reflexivity.
  - reflexivity.
  - reflexivity.
Qed.

Lemma count_by_permutation_from counts events1 events2 :
  events1 ≡ₚ events2 ->
  fold_left (add_count key) events1 counts =
  fold_left (add_count key) events2 counts.
Proof.
  intros P. revert counts.
  induction P as [|e l1 l2 _ IH|e1 e2 l|l1 l2 l3 _ IH1 _ IH2]; intros counts; simpl.
  - reflexivity.
  - apply IH.
  - rewrite add_count_swap. reflexivity.
  - rewrite IH1. apply IH2.
Qed.

Lemma key_total_cons event events k :
  key_total key k (event :: events) =
    if decide (key event = k) then Count event + key_total key k events
    else key_total key k events.
Proof.
  unfold key_total. simpl.
  destruct (decide (key event = k)) as [E|N].
  - rewrite bool_decide_eq_true_2 by assumption. reflexivity.
  - rewrite bool_decide_eq_false_2 by assumption. reflexivity.
Qed.

Lemma has_key_cons event events k :
  has_key key k (event :: events) =
    if decide (key event = k) then true else has_key key k events.
Proof.
  unfold has_key. simpl.
  destruct (decide (key event = k)) as [E|N].
  - rewrite bool_decide_eq_true_2 by assumption. reflexivity.
  - rewrite bool_decide_eq_false_2 by assumption. reflexivity.
Qed.

Lemma key_total_absent events k :
  has_key key k events = false -> key_total key k events = 0.
Proof.
  induction events as [|e events IH]; [reflexivity|].
  rewrite has_key_cons, key_total_cons.
  destruct (decide (key e = k)); [discriminate | exact IH].
Qed.

(** The loop from any starting map: a key that occurs ends at the wrapped
    exact sum, any other key is left alone. *)
Lemma fold_add_count_lookup events counts k :
  fold_left (add_count key) events counts !! k =
    if has_key key k events
    then Some (Int64.wrap (default 0 (counts !! k) + key_total key k events))
    else counts !! k.
Proof.
  revert counts. induction events as [|e events IH]; intros counts.
  - reflexivity.
  - cbn [fold_left].
    rewrite IH, add_count_lookup, has_key_cons, key_total_cons.
    destruct (decide (key e = k)) as [E|N]; [|reflexivity].
    cbn [from_option id]. rewrite (Int64Facts.add_unfold).
    destruct (has_key key k events) eqn:Hk.
    + rewrite Int64Facts.wrap_add_l, Z.add_assoc. reflexivity.
    + rewrite (key_total_absent _ _ Hk), Z.add_0_r. reflexivity.
Qed.
End Aggregation.

Section Sums.
Context `{Countable K}.
Variable key : FirewallEventsAdaptiveGroup -> K.

Implicit Types (counts : gmap K Z) (event : FirewallEventsAdaptiveGroup)
  (events : list FirewallEventsAdaptiveGroup) (k : K).

Lemma sum_counts_empty : sum_counts (∅ : gmap K Z) = 0.
Proof. apply map_fold_empty. Qed.

Lemma sum_counts_insert_fresh counts k v :
  counts !! k = None -> sum_counts (<[k := v]> counts) = v + sum_counts counts.
Proof.
  intros Hk. unfold sum_counts.
  apply (map_fold_insert_L (fun _ c acc => c + acc)); [|exact Hk].
  intros. lia.
Qed.

Lemma sum_counts_delete counts k v :
  counts !! k = Some v -> sum_counts counts = v + sum_counts (delete k counts).
Proof.
  intros Hk. unfold sum_counts.
  apply (map_fold_delete_L (fun _ c acc => c + acc)); [|exact Hk].
  intros. lia.
Qed.

Lemma sum_counts_insert counts k v :
  sum_counts (<[k := v]> counts) =
    v - default 0 (counts !! k) + sum_counts counts.
Proof.
  destruct (counts !! k) as [v0|] eqn:Hk; cbn [from_option id].
  - rewrite <- insert_delete_eq.
    rewrite sum_counts_insert_fresh by apply lookup_delete_eq.
    rewrite (sum_counts_delete counts k v0 Hk). lia.
  - rewrite sum_counts_insert_fresh by exact Hk. lia.
Qed.

Lemma sum_counts_nonneg counts : nonneg_counts counts -> 0 <= sum_counts counts.
Proof.
  induction counts as [|k v counts Hk IH] using map_ind; intros Hpos.
  - rewrite sum_counts_empty. lia.
  - rewrite sum_counts_insert_fresh by exact Hk.
    assert (0 <= v) by (apply (Hpos k); apply lookup_insert_eq).
    assert (0 <= sum_counts counts).
    { apply IH. intros k' v' Hk'. apply (Hpos k').
      rewrite lookup_insert_ne; [exact Hk'|]. intros ->. congruence. }
    lia.
Qed.

Lemma lookup_le_sum_counts counts k :
  nonneg_counts counts ->
  0 <= default 0 (counts !! k) <= sum_counts counts.
Proof.
  intros Hpos. pose proof (sum_counts_nonneg counts Hpos) as Hs.
  destruct (counts !! k) as [v|] eqn:Hk; cbn [from_option id]; [|lia].
  pose proof (Hpos k v Hk).
  rewrite (sum_counts_delete counts k v Hk).
  assert (0 <= sum_counts (delete k counts)); [|lia].
  apply sum_counts_nonneg. intros k' v' Hk'. apply (Hpos k').
  apply lookup_delete_Some in Hk'. tauto.
Qed.

Lemma total_count_nonneg events :
  Forall (fun event => 0 <= Count event) events -> 0 <= total_count events.
Proof.
  induction 1 as [|e events He _ IH]; simpl; lia.
Qed.

(** The total survives the loop up to a multiple of 2^64. *)
Lemma fold_sum_counts_mod events counts :
  sum_counts (fold_left (add_count key) events counts) mod Int64.modulus =
  (sum_counts counts + total_count events) mod Int64.modulus.
Proof.
  revert counts. induction events as [|e events IH]; intros counts.
  - simpl. rewrite Z.add_0_r. reflexivity.
  - cbn [fold_left]. rewrite IH. unfold add_count.
    rewrite sum_counts_insert, Int64Facts.add_unfold.
    destruct (Int64Facts.wrap_shift (default 0 (counts !! key e) + Count e))
      as [q ->].
    cbn [total_count foldr]. fold (total_count events).
    replace (default 0 (counts !! key e) + Count e + q * Int64.modulus
             - default 0 (counts !! key e) + sum_counts counts
             + total_count events)
      with (sum_counts counts + (Count e + total_count events)
            + q * Int64.modulus) by lia.
    apply Z_mod_plus_full.
Qed.

(** Without overflow the loop adds exactly. *)
Lemma fold_sum_counts_exact events counts :
  nonneg_counts counts ->
  Forall (fun event => 0 <= Count event) events ->
  sum_counts counts + total_count events <= Int64.max_int ->
  sum_counts (fold_left (add_count key) events counts) =
  sum_counts counts + total_count events.
Proof.
  revert counts.
  induction events as [|e events IH]; intros counts Hpos Hev Hmax.
  - simpl. lia.
  - cbn [fold_left]. cbn [total_count foldr] in *. fold (total_count events) in *.
    apply Forall_cons in Hev as [He Hev].
    pose proof (total_count_nonneg events Hev) as Ht.
    pose proof (lookup_le_sum_counts counts (key e) Hpos) as Hd.
    assert (Hadd : Int64.add (default 0 (counts !! key e)) (Count e) =
                   default 0 (counts !! key e) + Count e).
    { rewrite Int64Facts.add_unfold. apply Int64Facts.wrap_id.
      unfold Int64.in_range, Int64.min_int. split; [lia|lia]. }
    assert (Hsum : sum_counts (add_count key counts e) =
                   Count e + sum_counts counts).
    { unfold add_count. rewrite sum_counts_insert, Hadd. lia. }
    rewrite IH.
    + rewrite Hsum. lia.
    + intros k v. unfold add_count. rewrite lookup_insert.
      destruct (decide (key e = k)).
      * intros [= <-]. rewrite Hadd. lia.
      * apply Hpos.
    + exact Hev.
    + rewrite Hsum. lia.
Qed.
End Sums.

Section Ranking.
Implicit Types (x y m : countryCount) (pre mid todo rest : list countryCount).

Lemma compare_swap_middle pre x mid y todo :
  compare_swap (pre ++ x :: mid ++ y :: todo)
               (length pre) (S (length pre + length mid)) =
    if count y >? count x then pre ++ y :: mid ++ x :: todo
    else pre ++ x :: mid ++ y :: todo.
Proof.
  unfold compare_swap.
  rewrite (list_lookup_middle pre (mid ++ y :: todo) x (length pre) eq_refl).
  assert (Hj : (pre ++ x :: mid ++ y :: todo) !! S (length pre + length mid)
               = Some y).
  { replace (pre ++ x :: mid ++ y :: todo)
      with ((pre ++ x :: mid) ++ y :: todo)
      by (rewrite <- app_assoc; reflexivity).
    apply list_lookup_middle. rewrite length_app. simpl. lia. }
  rewrite Hj. destruct (count y >? count x); [|reflexivity].
  rewrite (insert_app_r_alt pre _ (length pre)) by lia.
  rewrite Nat.sub_diag. cbn [insert list_insert].
  replace (pre ++ y :: mid ++ y :: todo)
    with ((pre ++ y :: mid) ++ y :: todo)
    by (rewrite <- app_assoc; reflexivity).
  assert (Hlen : length (pre ++ y :: mid) = S (length pre + length mid))
    by (rewrite length_app; simpl; lia).
  rewrite insert_app_r_alt by lia.
  rewrite Hlen, Nat.sub_diag. cbn [insert list_insert].
  rewrite <- app_assoc. reflexivity.
Qed.

Lemma inner_loop_sift todo : forall pre x mid,
  inner_loop (length todo) (pre ++ x :: mid ++ todo)
             (length pre) (S (length pre + length mid)) =
  pre ++ (sift x todo).1 :: mid ++ (sift x todo).2.
Proof.
  induction todo as [|y todo IH]; intros pre x mid.
  - reflexivity.
  - cbn [length inner_loop sift]. rewrite compare_swap_middle.
    destruct (count y >? count x).
    + replace (pre ++ y :: mid ++ x :: todo)
        with (pre ++ y :: (mid ++ [x]) ++ todo)
        by (rewrite <- app_assoc; reflexivity).
      replace (S (S (length pre + length mid)))
        with (S (length pre + length (mid ++ [x])))
        by (rewrite length_app; simpl; lia).
      rewrite IH. destruct (sift y todo) as [m r]. cbn [fst snd].
      rewrite <- app_assoc. reflexivity.
    + replace (pre ++ x :: mid ++ y :: todo)
        with (pre ++ x :: (mid ++ [y]) ++ todo)
        by (rewrite <- app_assoc; reflexivity).
      replace (S (S (length pre + length mid)))
        with (S (length pre + length (mid ++ [y])))
        by (rewrite length_app; simpl; lia).
      rewrite IH. destruct (sift x todo) as [m r]. cbn [fst snd].
      rewrite <- app_assoc. reflexivity.
Qed.

Lemma sift_length x rest : length (sift x rest).2 = length rest.
Proof.
  revert x. induction rest as [|y rest IH]; intros x; [reflexivity|].
  cbn [sift]. destruct (count y >? count x).
  - specialize (IH y). destruct (sift y rest). simpl in *. lia.
  - specialize (IH x). destruct (sift x rest). simpl in *. lia.
Qed.

Lemma sift_permutation x rest :
  (sift x rest).1 :: (sift x rest).2 ≡ₚ x :: rest.
Proof.
  revert x. induction rest as [|y rest IH]; intros x; [reflexivity|].
  cbn [sift]. destruct (count y >? count x).
  - specialize (IH y). destruct (sift y rest) as [m r]. cbn [fst snd] in *.
    etrans; [apply Permutation_swap|]. apply perm_skip. exact IH.
  - specialize (IH x). destruct (sift x rest) as [m r]. cbn [fst snd] in *.
    etrans; [apply Permutation_swap|].
    etrans; [apply perm_skip; exact IH|]. apply Permutation_swap.
Qed.

Lemma sift_start_le x rest : count x <= count (sift x rest).1.
Proof.
  revert x. induction rest as [|y rest IH]; intros x; [simpl; lia|].
  cbn [sift]. destruct (count y >? count x) eqn:C.
  - specialize (IH y). destruct (sift y rest) as [m r]. cbn [fst] in *. lia.
  - specialize (IH x). destruct (sift x rest) as [m r]. cbn [fst] in *. lia.
Qed.

Lemma sift_dominates x rest :
  Forall (count_ge (sift x rest).1) (sift x rest).2.
Proof.
  revert x. induction rest as [|y rest IH]; intros x; [constructor|].
  cbn [sift]. destruct (count y >? count x) eqn:C.
  - pose proof (sift_start_le y rest) as Hy. specialize (IH y).
    destruct (sift y rest) as [m r]. cbn [fst snd] in *.
    constructor; [unfold count_ge; lia | exact IH].
  - pose proof (sift_start_le x rest) as Hx. specialize (IH x).
    destruct (sift x rest) as [m r]. cbn [fst snd] in *.
    constructor; [unfold count_ge; lia | exact IH].
Qed.

Lemma outer_loop_sorts n : forall pre suf,
  length suf = n ->
  exists suf',
    outer_loop n (pre ++ suf) (length pre) = pre ++ suf' /\
    suf' ≡ₚ suf /\ StronglySorted count_ge suf'.
Proof.
  induction n as [|n IH]; intros pre suf Hlen.
  - destruct suf; [|discriminate]. exists []. repeat split; constructor.
  - destruct suf as [|x rest]; [discriminate|]. injection Hlen as Hlen.
    cbn [outer_loop].
    replace (length (pre ++ x :: rest) - S (length pre))%nat
      with (length rest) by (rewrite length_app; simpl; lia).
    pose proof (inner_loop_sift rest pre x []) as Hin.
    cbn [app length] in Hin. rewrite Nat.add_0_r in Hin. rewrite Hin.
    pose proof (sift_permutation x rest) as Hp.
    pose proof (sift_dominates x rest) as Hd.
    pose proof (sift_length x rest) as Hl.
    destruct (sift x rest) as [m r]. cbn [fst snd] in *.
    destruct (IH (pre ++ [m]) r) as (r' & Hrun & Hperm & Hsorted); [lia|].
    exists (m :: r'). split; [|split].
    + replace (S (length pre)) with (length (pre ++ [m]))
        by (rewrite length_app; simpl; lia).
      replace (pre ++ m :: r) with ((pre ++ [m]) ++ r)
        by (rewrite <- app_assoc; reflexivity).
      rewrite Hrun, <- app_assoc. reflexivity.
    + rewrite Hperm. exact Hp.
    + constructor; [exact Hsorted|]. rewrite Hperm. exact Hd.
Qed.

Lemma bubble_sort_permutation (countries : list countryCount) :
  bubble_sort countries ≡ₚ countries.
Proof.
  destruct (outer_loop_sorts (length countries) [] countries eq_refl)
    as (s & Hrun & Hperm & _).
  unfold bubble_sort. cbn [app length] in Hrun. rewrite Hrun. exact Hperm.
Qed.

Lemma bubble_sort_sorted (countries : list countryCount) :
  StronglySorted count_ge (bubble_sort countries).
Proof.
  destruct (outer_loop_sorts (length countries) [] countries eq_refl)
    as (s & Hrun & _ & Hsorted).
  unfold bubble_sort. cbn [app length] in Hrun. rewrite Hrun. exact Hsorted.
Qed.
End Ranking.

Section Determinism.
Implicit Types (l : list countryCount).

Lemma strictly_sorted_unique l1 : forall l2,
  l1 ≡ₚ l2 ->
  StronglySorted count_gt l1 -> StronglySorted count_gt l2 -> l1 = l2.
Proof.
  induction l1 as [|x l1 IH]; intros l2 Hp S1 S2.
  - apply Permutation_nil_l in Hp. exact Hp.
  - destruct l2 as [|y l2].
    { apply Permutation_nil_r in Hp. discriminate. }
    apply StronglySorted_inv in S1 as [S1 F1].
    apply StronglySorted_inv in S2 as [S2 F2].
    assert (Hx : x ∈ y :: l2) by (rewrite <- Hp; left).
    assert (Hy : y ∈ x :: l1) by (rewrite Hp; left).
    assert (x = y) as ->.
    { apply elem_of_cons in Hx as [Hx|Hx]; [exact Hx|].
      apply elem_of_cons in Hy as [Hy|Hy]; [symmetry; exact Hy|].
      rewrite Forall_forall in F1, F2.
      specialize (F1 _ Hy). specialize (F2 _ Hx).
      unfold count_gt in *. lia. }
    f_equal. apply IH; [|exact S1|exact S2].
    apply (Permutation_cons_inv Hp).
Qed.

Lemma sorted_distinct_strict l :
  StronglySorted count_ge l -> NoDup (count <$> l) ->
  StronglySorted count_gt l.
Proof.
  induction 1 as [|x l Hs IH Hf]; intros Hnd; [constructor|].
  rewrite fmap_cons in Hnd. apply NoDup_cons in Hnd as [Hx Hnd].
  constructor; [apply IH; exact Hnd|].
  rewrite Forall_forall in Hf |- *. intros z Hz.
  specialize (Hf z Hz). unfold count_ge, count_gt in *.
  assert (count z <> count x); [|lia].
  intros E. apply Hx. rewrite <- E. apply list_elem_of_fmap.
  exists z. split; [reflexivity|exact Hz].
Qed.

Lemma bubble_sort_distinct_counts l1 l2 :
  l1 ≡ₚ l2 -> NoDup (count <$> l1) -> bubble_sort l1 = bubble_sort l2.
Proof.
  intros Hp Hnd.
  assert (Hnd2 : NoDup (count <$> l2)) by (rewrite <- Hp; exact Hnd).
  apply strictly_sorted_unique.
  - rewrite !bubble_sort_permutation. exact Hp.
  - apply sorted_distinct_strict; [apply bubble_sort_sorted|].
    rewrite bubble_sort_permutation. exact Hnd.
  - apply sorted_distinct_strict; [apply bubble_sort_sorted|].
    rewrite bubble_sort_permutation. exact Hnd2.
Qed.

Lemma top10_spec l : top10 l = take (Nat.min 10 (length l)) l.
Proof.
  unfold top10. destruct (10 <? length l)%nat eqn:C.
  - apply Nat.ltb_lt in C. rewrite Nat.min_l by lia. reflexivity.
  - apply Nat.ltb_ge in C. rewrite Nat.min_r by lia. reflexivity.
Qed.
End Determinism.

Lemma Query_unfold rt c query vars debug sent :
  Query rt c query vars debug sent =
  match built_request rt c query vars with
  | None =>
    (Err (match json_Marshal rt {| Query_ := query; Variables := vars |} with
          | None => ErrMarshalRequest
          | Some _ => ErrCreateRequest
          end), sent)
  | Some httpReq =>
    match Do rt sent httpReq with
    | DoError => (Err ErrExecuteRequest, S sent)
    | DoResponse resp =>
      match Body resp with
      | None => (Err ErrReadResponse, S sent)
      | Some bodyBytes =>
        if negb (StatusCode resp =? http_StatusOK) then
          (Err (ErrUnexpectedStatusCode (StatusCode resp) bodyBytes), S sent)
        else
          match json_Unmarshal_GraphQLResponse rt bodyBytes with
          | None => (Err ErrDecodeResponse, S sent)
          | Some result =>
            match Errors result with
            | [] => (Ok result, S sent)
            | _ :: _ => (Err (ErrGraphqlErrors (Errors result)), S sent)
            end
          end
      end
    end
  end.
Proof.
  unfold Query, built_request.
  destruct (json_Marshal rt _) as [body|]; [|reflexivity].
  destruct (http_NewRequest rt _ _ body) as [httpReq|]; [|reflexivity].
  destruct (Do rt sent _) as [|resp]; [reflexivity|].
  destruct (Body resp) as [bodyBytes|]; [|reflexivity].
  destruct (negb _); [reflexivity|].
  destruct (json_Unmarshal_GraphQLResponse rt bodyBytes) as [result|];
    [|reflexivity].
  destruct (Errors result); reflexivity.
Qed.

Lemma Query_ok_clean rt c query vars debug sent r :
  (Query rt c query vars debug sent).1 = Ok r ->
  clean_answer rt c query vars sent r.
Proof.
  rewrite Query_unfold. unfold clean_answer.
  destruct (built_request rt c query vars) as [httpReq|]; [|discriminate].
  destruct (Do rt sent httpReq) as [|[status body]] eqn:HDo; [discriminate|].
  cbn [Body StatusCode].
  destruct body as [bodyBytes|]; [|discriminate].
  destruct (status =? http_StatusOK) eqn:Hst; [|discriminate].
  apply Z.eqb_eq in Hst. unfold http_StatusOK in Hst. subst status.
  cbn [negb].
  destruct (json_Unmarshal_GraphQLResponse rt bodyBytes) as [result|] eqn:Hdec;
    [|discriminate].
  destruct (Errors result) eqn:Herr; [|discriminate].
  cbn [fst]. intros [= <-]. exists httpReq, bodyBytes. auto.
Qed.

Lemma Query_clean_ok rt c query vars debug sent r :
  clean_answer rt c query vars sent r ->
  Query rt c query vars debug sent = (Ok r, S sent).
Proof.
  intros (httpReq & bodyBytes & Hreq & HDo & Hdec & Herr).
  rewrite Query_unfold, Hreq, HDo. cbn [Body StatusCode].
  change (200 =? http_StatusOK) with true. cbn [negb].
  rewrite Hdec, Herr. reflexivity.
Qed.

(** C1. [Query] succeeds exactly on a clean answer (status 200, decodable
    body, empty payload error list); in every other case it returns an
    error and no data. *)
Theorem Query_success_iff_clean rt c query vars debug sent :
  (forall r, (Query rt c query vars debug sent).1 = Ok r <->
             clean_answer rt c query vars sent r) /\
  match (Query rt c query vars debug sent).1 with
  | Ok r => clean_answer rt c query vars sent r
  | Err e =>
    data_of (Query rt c query vars debug sent).1 = None /\
    forall r, ~ clean_answer rt c query vars sent r
  end.
Proof.
  split.
  - intros r. split.
    + apply Query_ok_clean.
    + intros Hc. rewrite (Query_clean_ok _ _ _ _ debug _ _ Hc). reflexivity.
  - destruct (Query rt c query vars debug sent).1 as [r|e] eqn:HQ.
    + apply (Query_ok_clean _ _ _ _ debug). exact HQ.
    + split; [reflexivity|]. intros r Hc.
      rewrite (Query_clean_ok _ _ _ _ debug _ _ Hc) in HQ. discriminate.
Qed.


Lemma Query_sent_bounds rt c query vars debug sent :
  (sent <= (Query rt c query vars debug sent).2 <= S sent)%nat.
Proof.
  rewrite Query_unfold.
  destruct (built_request rt c query vars) as [httpReq|]; [|simpl; lia].
  destruct (Do rt sent httpReq) as [|resp]; [simpl; lia|].
  destruct (Body resp) as [bodyBytes|]; [|simpl; lia].
  destruct (negb _); [simpl; lia|].
  destruct (json_Unmarshal_GraphQLResponse rt bodyBytes) as [result|];
    [|simpl; lia].
  destruct (Errors result); simpl; lia.
Qed.



Lemma firewallEventsVars_since zoneID since until :
  firewallEventsVars zoneID since until !! "since"%string =
  Some (VTimeRFC3339 (since / Second)).
Proof.
  unfold firewallEventsVars.
  rewrite lookup_insert_ne by discriminate. apply lookup_insert_eq.
Qed.

Lemma firewallEventsVars_until zoneID since until :
  firewallEventsVars zoneID since until !! "until"%string =
  Some (VTimeRFC3339 (until / Second)).
Proof. unfold firewallEventsVars. apply lookup_insert_eq. Qed.

Lemma window_counts_closed since until t :
  window_counts since until t = true <->
  whole_second since <= t <= whole_second until.
Proof.
  unfold window_counts, selects, firewallEventsQuery, clause_holds, whole_second.
  cbn [filter forallb fst snd].
  rewrite firewallEventsVars_since, firewallEventsVars_until.
  rewrite andb_true_r, andb_true_iff, !Z.leb_le. reflexivity.
Qed.

Lemma Second_pos : 0 < Second.
Proof. reflexivity. Qed.

Lemma whole_second_le t : whole_second t <= t.
Proof.
  unfold whole_second. rewrite Z.mul_comm.
  apply Z.mul_div_le. exact Second_pos.
Qed.

Lemma whole_second_multiple k : whole_second (k * Second) = k * Second.
Proof.
  unfold whole_second. rewrite Z.div_mul; [reflexivity|].
  pose proof Second_pos. lia.
Qed.

Lemma whole_second_mono a b : a <= b -> whole_second a <= whole_second b.
Proof.
  intros Hab. unfold whole_second.
  apply Z.mul_le_mono_nonneg_r; [pose proof Second_pos; lia|].
  apply Z.div_le_mono; [exact Second_pos|exact Hab].
Qed.






(** C3, as stated, fails: when the addition overflows, the counts of the
    summary add up to -2^63 while the counts of the rows add up to 2^63. *)
Lemma conservation_fails_on_overflow :
  sum_counts (actionCounts overflowing_events) = -9223372036854775808 /\
  total_count overflowing_events = 9223372036854775808.
Proof. split; vm_compute; reflexivity. Qed.

(** C3 (amended). For every list of rows and every projection of the
    dimensions, the counts of the summary and the counts of the rows add up
    to the same total modulo 2^64; the totals are equal whenever the counts
    are non-negative and their total fits in an [int64]. *)
Theorem count_by_conserves_total `{Countable K}
    (key : FirewallEventsAdaptiveGroup -> K)
    (events : list FirewallEventsAdaptiveGroup) :
  sum_counts (count_by key events) mod Int64.modulus =
    total_count events mod Int64.modulus /\
  (Forall (fun event => 0 <= Count event) events ->
   total_count events <= Int64.max_int ->
   sum_counts (count_by key events) = total_count events).
Proof.
  unfold count_by. split.
  - rewrite fold_sum_counts_mod, sum_counts_empty. reflexivity.
  - intros Hpos Hmax. rewrite fold_sum_counts_exact.
    + rewrite sum_counts_empty. reflexivity.
    + intros k v. rewrite lookup_empty. discriminate.
    + exact Hpos.
    + rewrite sum_counts_empty. exact Hmax.
Qed.

Lemma count_by_conserves_total_witness :
  sum_counts (count_by by_action sample_events) = total_count sample_events.
Proof.
  apply (proj2 (count_by_conserves_total by_action sample_events)).
  - repeat constructor; vm_compute; discriminate.
  - vm_compute. discriminate.
Defined.

(** C5, as stated, fails: two rows of one action whose counts overflow an
    [int64] are summed to the wrapped value -2^63 (the exact sum is 2^63),
    and the program goes on to print it and exits with code 0. *)
Lemma overflow_wraps_silently :
  actionCounts overflowing_events !! "block"%string =
    Some (-9223372036854775808) /\
  key_total by_action "block"%string overflowing_events =
    9223372036854775808 /\
  report capped_runtime
    {| Zones := [{| FirewallEventsAdaptiveGroups := overflowing_events |}] |} =
    {| stdout :=
         [Found 2; PrettyJSON ""; SummaryByAction;
          CountLine "block" (-9223372036854775808);
          SummaryBySource; CountLine "waf" (-9223372036854775808);
          TopCountries; CountLine "US" 9223372036854775807;
          CountLine "DE" 1; Completed];
       code := 0 |}.
Proof. repeat split; vm_compute; reflexivity. Qed.

(** A key whose exact sum fits in an [int64] gets exactly that sum. *)
Lemma count_by_exact_in_range `{Countable K}
    (key : FirewallEventsAdaptiveGroup -> K)
    (events : list FirewallEventsAdaptiveGroup) (k : K) :
  has_key key k events = true ->
  Int64.in_range (key_total key k events) ->
  count_by key events !! k = Some (key_total key k events).
Proof.
  intros Hk Hr. unfold count_by.
  rewrite fold_add_count_lookup, Hk, lookup_empty.
  cbn [from_option id]. rewrite Z.add_0_l, Int64Facts.wrap_id by exact Hr.
  reflexivity.
Qed.

(** Whatever the input, the counts of a summary are [int64] values. *)
Lemma count_by_in_range `{Countable K}
    (key : FirewallEventsAdaptiveGroup -> K)
    (events : list FirewallEventsAdaptiveGroup) (k : K) (v : Z) :
  count_by key events !! k = Some v -> Int64.in_range v.
Proof.
  unfold count_by. rewrite fold_add_count_lookup, lookup_empty.
  destruct (has_key key k events); [|discriminate].
  intros [= <-]. apply Int64Facts.wrap_in_range.
Qed.

(** C5 (amended). Summation never fails and wraps silently: the count a
    summary holds for a key is the exact sum of the counts of the rows with
    that key, reduced modulo 2^64 into the [int64] range. *)
Theorem count_by_wraps_modulo `{Countable K}
    (key : FirewallEventsAdaptiveGroup -> K)
    (events : list FirewallEventsAdaptiveGroup) (k : K) :
  count_by key events !! k =
    if has_key key k events
    then Some (Int64.wrap (key_total key k events))
    else None.
Proof.
  unfold count_by. rewrite fold_add_count_lookup, lookup_empty.
  cbn [from_option id]. rewrite Z.add_0_l. reflexivity.
Qed.

(** C8. Aggregation under a fixed projection does not depend on the order
    of the rows: any permutation of the input yields the same mapping from
    key to summed count. *)
Theorem count_by_permutation `{Countable K}
    (key : FirewallEventsAdaptiveGroup -> K)
    (events1 events2 : list FirewallEventsAdaptiveGroup) :
  events1 ≡ₚ events2 -> count_by key events1 = count_by key events2.
Proof. intros Hp. unfold count_by. apply count_by_permutation_from. exact Hp. Qed.

Lemma count_by_permutation_witness :
  count_by by_action sample_events = count_by by_action (rev sample_events).
Proof.
  apply (count_by_permutation by_action sample_events (rev sample_events)).
  apply Permutation_rev.
Defined.

(** C9, as stated, fails: for two labels with the same count, the order of
    the top-10 lines follows the order in which the map was ranged over. *)
Lemma tied_counts_printed_in_range_order :
  topCountries map_to_list tied_events =
    [{| country := "US"; count := 5 |}; {| country := "DE"; count := 5 |}] /\
  topCountries reverse_order tied_events =
    [{| country := "DE"; count := 5 |}; {| country := "US"; count := 5 |}].
Proof. split; vm_compute; reflexivity. Qed.

Lemma collect_permutation order1 order2 (counts : gmap string Z) :
  order1 counts ≡ₚ order2 counts ->
  collect order1 counts ≡ₚ collect order2 counts.
Proof. intros Hp. unfold collect. apply Permutation_map. exact Hp. Qed.

Lemma collect_counts order (counts : gmap string Z) :
  count <$> collect order counts = snd <$> order counts.
Proof.
  unfold collect. induction (order counts) as [|kv l IH]; [reflexivity|].
  cbn [List.map fmap list_fmap]. f_equal. exact IH.
Qed.

(** C9 (amended). The ranking is sorted by count, largest first, with no
    tie-break: the sorted slice is a rearrangement of the collected entries
    in non-increasing order of count, of which the first ten (or all, if
    fewer) are printed.  Two runs over the same grouped counts print the
    same lines whenever the counts are pairwise distinct; labels sharing a
    count come out in the order the map was ranged over. *)
Theorem top_countries_sorted_by_count_only
    (order1 order2 : gmap string Z -> list (string * Z))
    (events : list FirewallEventsAdaptiveGroup) :
  let countries := collect order1 (countryCounts events) in
  bubble_sort countries ≡ₚ countries /\
  StronglySorted count_ge (bubble_sort countries) /\
  topCountries order1 events =
    take (Nat.min 10 (length countries)) (bubble_sort countries) /\
  (order1 (countryCounts events) ≡ₚ order2 (countryCounts events) ->
   NoDup (snd <$> order1 (countryCounts events)) ->
   topCountries order1 events = topCountries order2 events).
Proof.
  intros countries. split; [|split; [|split]].
  - apply bubble_sort_permutation.
  - apply bubble_sort_sorted.
  - unfold topCountries. fold countries. rewrite top10_spec.
    rewrite (Permutation_length (bubble_sort_permutation countries)).
    reflexivity.
  - intros Hp Hnd. unfold topCountries. f_equal.
    apply bubble_sort_distinct_counts.
    + apply collect_permutation. exact Hp.
    + rewrite collect_counts. exact Hnd.
Qed.

Lemma top_countries_sorted_by_count_only_witness :
  topCountries map_to_list sample_events =
  topCountries reverse_order sample_events.
Proof.
  apply (top_countries_sorted_by_count_only map_to_list reverse_order
           sample_events).
  - apply Permutation_rev.
  - apply (bool_decide_unpack _). vm_compute. exact I.
Defined.

Lemma report_first_zone rt zone rest :
  report rt {| Zones := zone :: rest |} = report rt {| Zones := [zone] |}.
Proof. reflexivity. Qed.



Module TimeWindowTrackerFacts.
Import TimeWindowTracker.

Lemma chained_end_le start ws : chained start ws -> start <= end_of start ws.
Proof.
  revert start. induction ws as [|w ws IH]; intros start; simpl; [lia|].
  intros (Hs & Hlt & Hc). specialize (IH _ Hc). lia.
Qed.

Lemma coverage_cons w ws t :
  coverage (w :: ws) t =
  ((if contains w t then 1 else 0) + coverage ws t)%nat.
Proof. unfold coverage. simpl. destruct (contains w t); reflexivity. Qed.

Lemma chained_coverage ws : forall start t,
  chained start ws ->
  coverage ws t =
    if (start <=? t) && (t <? end_of start ws) then 1%nat else 0%nat.
Proof.
  induction ws as [|w ws IH]; intros start t Hc.
  - simpl. unfold coverage. simpl.
    destruct (start <=? t) eqn:A, (t <? start) eqn:B; try reflexivity.
    apply Z.leb_le in A. apply Z.ltb_lt in B. lia.
  - destruct Hc as (Hs & Hlt & Hc). rewrite coverage_cons, (IH _ t Hc).
    pose proof (chained_end_le _ _ Hc) as Hle.
    cbn [end_of]. unfold contains. rewrite Hs.
    destruct (start <=? t) eqn:A, (t <? until w) eqn:B,
             (until w <=? t) eqn:C, (t <? end_of (until w) ws) eqn:D;
      cbn [andb]; try reflexivity;
      repeat match goal with
             | H : (_ <=? _) = true |- _ => apply Z.leb_le in H
             | H : (_ <=? _) = false |- _ => apply Z.leb_gt in H
             | H : (_ <? _) = true |- _ => apply Z.ltb_lt in H
             | H : (_ <? _) = false |- _ => apply Z.ltb_ge in H
             end; lia.
Qed.

Lemma end_of_last ws : forall start lastw,
  last ws = Some lastw -> end_of start ws = until lastw.
Proof.
  induction ws as [|w ws IH]; intros start lastw; [discriminate|].
  destruct ws as [|w' ws].
  - simpl. intros [= <-]. reflexivity.
  - intros Hl. cbn [end_of]. apply (IH (until w)). exact Hl.
Qed.

Section Run.
Context {Points : Type}.
Variables (lookback : Z) (zone : string).

Lemma scrapeZone_checkpoint pipeline checkpoint now :
  match @scrapeZone Points lookback pipeline checkpoint zone now with
  | (checkpoint', Done w points) =>
    pipeline w = Some points /\ checkpoint' = <[zone := until w]> checkpoint
  | (checkpoint', _) => checkpoint' = checkpoint
  end.
Proof.
  unfold scrapeZone.
  destruct (nextWindow lookback checkpoint zone now) as [|w]; [reflexivity|].
  destruct (pipeline w) eqn:Hp; [split; [exact Hp|reflexivity] | reflexivity].
Qed.

Lemma run_chained_from cycles : forall checkpoint c,
  checkpoint !! zone = Some c ->
  forallb succeeded (@run Points lookback zone cycles checkpoint).2 = true ->
  chained c (issued (run lookback zone cycles checkpoint).2).
Proof.
  induction cycles as [|[now pipeline] cycles IH]; intros checkpoint c Hc Hok.
  - exact I.
  - cbn [run] in *. unfold scrapeZone, nextWindow in *. rewrite Hc in *.
    destruct (now <=? c) eqn:Hnow.
    + destruct (run lookback zone cycles checkpoint) as [final rs] eqn:Hrun.
      cbn [snd forallb succeeded andb] in *.
      specialize (IH checkpoint c Hc). rewrite Hrun in IH. apply IH. exact Hok.
    + destruct (pipeline _) as [points|].
      * destruct (run lookback zone cycles (<[zone := _]> checkpoint))
          as [final rs] eqn:Hrun.
        cbn [snd forallb succeeded andb until since] in *.
        specialize (IH (<[zone := now]> checkpoint) now (lookup_insert_eq _ _ _)).
        rewrite Hrun in IH. cbn [snd] in IH.
        unfold issued. cbn [omap list_omap]. fold (issued rs).
        cbn [chained since until]. apply Z.leb_gt in Hnow.
        split; [reflexivity|]. split; [lia|]. apply IH. exact Hok.
      * destruct (run lookback zone cycles checkpoint) as [final rs].
        cbn [snd forallb succeeded andb] in Hok. discriminate.
Qed.

Lemma run_chained cycles checkpoint first :
  0 < lookback ->
  forallb succeeded (@run Points lookback zone cycles checkpoint).2 = true ->
  head (issued (run lookback zone cycles checkpoint).2) = Some first ->
  chained (since first) (issued (run lookback zone cycles checkpoint).2).
Proof.
  intros Hlb Hok Hhd.
  destruct (checkpoint !! zone) as [c|] eqn:Hc.
  - pose proof (run_chained_from cycles checkpoint c Hc Hok) as Hch.
    remember (issued (run lookback zone cycles checkpoint).2) as ws eqn:Hws.
    destruct ws as [|w ws]; [discriminate|]. injection Hhd as ->.
    destruct Hch as (Hs & Hrest). rewrite Hs. split; [exact Hs|exact Hrest].
  - destruct cycles as [|[now pipeline] cycles]; [discriminate|].
    cbn [run] in *. unfold scrapeZone, nextWindow in *. rewrite Hc in *.
    destruct (pipeline _) as [points|].
    + pose proof (run_chained_from cycles (<[zone := now]> checkpoint) now
                    (lookup_insert_eq _ _ _)) as Hch.
      cbn [until] in *.
      destruct (run lookback zone cycles (<[zone := now]> checkpoint))
        as [final rs].
      cbn [snd forallb succeeded andb] in *.
      unfold issued in *. cbn [omap list_omap head] in *.
      injection Hhd as <-. cbn [chained since until].
      split; [reflexivity|]. split; [lia|]. apply Hch. exact Hok.
    + destruct (run lookback zone cycles checkpoint) as [final rs].
      cbn [snd forallb succeeded andb] in Hok. discriminate.
Qed.

Lemma run_failed_retry pipeline checkpoint checkpoint' now w c :
  @scrapeZone Points lookback pipeline checkpoint zone now =
    (checkpoint', Failed w) ->
  checkpoint !! zone = Some c ->
  checkpoint' = checkpoint /\
  w = {| since := c; until := now |} /\
  forall now', now <= now' ->
    nextWindow lookback checkpoint' zone now' =
      Window {| since := since w; until := now' |}.
Proof.
  unfold scrapeZone, nextWindow. intros Hrun Hc. rewrite Hc in Hrun.
  destruct (now <=? c) eqn:Hnow; [discriminate|].
  destruct (pipeline _); [discriminate|].
  injection Hrun as <- <-. split; [reflexivity|]. split; [reflexivity|].
  intros now' Hle. rewrite Hc. apply Z.leb_gt in Hnow.
  destruct (now' <=? c) eqn:Hnow'; [apply Z.leb_le in Hnow'; lia|].
  reflexivity.
Qed.
End Run.



End TimeWindowTrackerFacts.

(* ===================================================================== *)
(** * Further properties of the client and of [main] *)
(* ===================================================================== *)

Section Substrings.
Local Open Scope string_scope.

Lemma substring_cat (s : string) : forall n m k : nat,
  (n + m + k <= String.length s)%nat ->
  String.substring n m s +:+ String.substring (n + m) k s =
  String.substring n (m + k) s.
Proof.
  induction s as [|a s IH]; intros n m k Hlen.
  - simpl in Hlen. assert (n = 0%nat) as -> by lia.
    assert (m = 0%nat) as -> by lia. assert (k = 0%nat) as -> by lia.
    reflexivity.
  - destruct n as [|n].
    + destruct m as [|m]; [reflexivity|].
      change (String a (String.substring 0 m s +:+ String.substring m k s) =
              String a (String.substring 0 (m + k) s)).
      f_equal. apply (IH 0%nat m k). simpl in Hlen. lia.
    + simpl. apply IH. simpl in Hlen. lia.
Qed.

Lemma substring_whole (s : string) :
  String.substring 0 (String.length s) s = s.
Proof. induction s as [|a s IH]; [reflexivity|]. simpl. f_equal. exact IH. Qed.

Lemma substring_length (s : string) : forall n m : nat,
  (n + m <= String.length s)%nat ->
  String.length (String.substring n m s) = m.
Proof.
  induction s as [|a s IH]; intros n m Hlen.
  - simpl in Hlen. assert (n = 0%nat) as -> by lia.
    assert (m = 0%nat) as -> by lia. reflexivity.
  - destruct n as [|n].
    + destruct m as [|m]; [reflexivity|]. simpl. f_equal.
      apply IH. simpl in Hlen. lia.
    + simpl. apply IH. simpl in Hlen. lia.
Qed.
End Substrings.

Lemma debug_token_line_masks (c : GraphQLClient) :
  masks_token (apiToken c) (debug_token_line c).
Proof.
  unfold debug_token_line.
  destruct (10 <? String.length (apiToken c))%nat eqn:Hlen.
  - apply Nat.ltb_lt in Hlen. cbn [masks_token]. split; [reflexivity|].
    set (token := apiToken c) in *. set (n := String.length token) in *.
    exists (String.substring 5 (n - 10) token).
    split; [|split; [|split]].
    + replace (n - 5)%nat with (5 + (n - 10))%nat by lia.
      rewrite (substring_cat token 5 (n - 10) 5) by (fold n; lia).
      pose proof (substring_cat token 0 5 (n - 10 + 5)) as H05.
      change (0 + 5)%nat with 5%nat in H05. rewrite H05 by (fold n; lia).
      replace (5 + (n - 10 + 5))%nat with n by lia.
      symmetry. apply substring_whole.
    + apply substring_length. fold n. lia.
    + apply substring_length. fold n. lia.
    + rewrite substring_length by (fold n; lia). lia.
  - apply Nat.ltb_ge in Hlen. cbn [masks_token]. split; [reflexivity|exact Hlen].
Qed.


(** X1. [GetFirewallEvents] succeeds exactly when the answer to its one
    request is clean (status 200, decodable, no payload errors) and the
    [data] member decodes into the firewall-events shape. *)
Theorem GetFirewallEvents_success_iff
    rt c zoneID since until debug sent result :
  (GetFirewallEvents rt c zoneID since until debug sent).1 = Ok result <->
  exists resp,
    clean_answer rt c firewallEventsQueryText
      (firewallEventsVars zoneID since until) sent resp /\
    json_Unmarshal_FirewallEventsResponse rt (Data resp) = Some result.
Proof.
  unfold GetFirewallEvents. split.
  - destruct (Query rt c firewallEventsQueryText _ debug sent)
      as [[resp|e] sent'] eqn:HQ; [|discriminate].
    destruct (json_Unmarshal_FirewallEventsResponse rt (Data resp))
      as [r|] eqn:Hdec; [|discriminate].
    cbn [fst]. intros [= <-]. exists resp. split; [|exact Hdec].
    apply (Query_ok_clean _ _ _ _ debug). rewrite HQ. reflexivity.
  - intros (resp & Hc & Hdec).
    rewrite (Query_clean_ok _ _ _ _ debug _ _ Hc), Hdec. reflexivity.
Qed.

Section SummaryShape.
Context `{Countable K}.
Variable key : FirewallEventsAdaptiveGroup -> K.

Implicit Types (counts : gmap K Z) (event : FirewallEventsAdaptiveGroup)
  (events : list FirewallEventsAdaptiveGroup) (k : K).

Lemma has_key_true events k :
  has_key key k events = true <-> k ∈ key <$> events.
Proof.
  induction events as [|e events IH].
  - simpl. split; [discriminate|]. intros Hin. inversion Hin.
  - rewrite has_key_cons, fmap_cons, elem_of_cons.
    destruct (decide (key e = k)) as [E|N].
    + split; [intros _; left; symmetry; exact E | reflexivity].
    + rewrite IH. split; [intros Hin; right; exact Hin|].
      intros [E|Hin]; [congruence|exact Hin].
Qed.

Lemma has_key_app events1 events2 k :
  has_key key k (events1 ++ events2) =
  has_key key k events1 || has_key key k events2.
Proof. unfold has_key. apply existsb_app. Qed.

Lemma total_count_app events1 events2 :
  total_count (events1 ++ events2) = total_count events1 + total_count events2.
Proof.
  induction events1 as [|e events1 IH]; [reflexivity|].
  cbn [app total_count foldr]. fold (total_count (events1 ++ events2)).
  fold (total_count events1). rewrite IH. lia.
Qed.

Lemma key_total_app events1 events2 k :
  key_total key k (events1 ++ events2) =
  key_total key k events1 + key_total key k events2.
Proof. unfold key_total. rewrite List.filter_app. apply total_count_app. Qed.

Lemma count_by_lookup events k :
  count_by key events !! k =
    if has_key key k events
    then Some (Int64.wrap (key_total key k events))
    else None.
Proof.
  unfold count_by. rewrite fold_add_count_lookup, lookup_empty.
  cbn [from_option id]. rewrite Z.add_0_l. reflexivity.
Qed.

Lemma fold_add_count_size events : forall counts,
  (size (fold_left (add_count key) events counts)
   <= size counts + length events)%nat.
Proof.
  induction events as [|e events IH]; intros counts.
  - simpl. lia.
  - cbn [fold_left length]. etrans; [apply IH|].
    unfold add_count. rewrite map_size_insert.
    destruct (counts !! key e); simpl; lia.
Qed.
End SummaryShape.

(** X3. A summary has an entry for exactly the keys that occur in the
    rows: no key is invented and none is lost, whatever the counts. *)
Theorem count_by_dom `{Countable K}
    (key : FirewallEventsAdaptiveGroup -> K)
    (events : list FirewallEventsAdaptiveGroup) :
  dom (count_by key events) = list_to_set (key <$> events).
Proof.
  apply set_eq. intros k.
  rewrite elem_of_dom, elem_of_list_to_set, <- has_key_true, count_by_lookup.
  destruct (has_key key k events).
  - split; [reflexivity|]. intros _. eexists. reflexivity.
  - split; [intros [v Hv]; discriminate | discriminate].
Qed.

(** X4. A summary never has more entries than there are rows; an empty
    list of rows gives the empty summary. *)
Theorem count_by_size `{Countable K}
    (key : FirewallEventsAdaptiveGroup -> K)
    (events : list FirewallEventsAdaptiveGroup) :
  (size (count_by key events) <= length events)%nat /\
  count_by key [] = ∅.
Proof.
  split; [|reflexivity]. unfold count_by.
  etrans; [apply fold_add_count_size|]. rewrite map_size_empty. lia.
Qed.

Lemma wrap_add_r (a b : Z) :
  Int64.wrap (a + Int64.wrap b) = Int64.wrap (a + b).
Proof.
  rewrite (Z.add_comm a (Int64.wrap b)), Int64Facts.wrap_add_l, Z.add_comm.
  reflexivity.
Qed.

(** X5. Summarising a concatenation of two row lists is the same as
    summarising each list and merging the two summaries key by key with
    the wrapping [int64] addition (a key present on one side only keeps
    its count). *)
Theorem count_by_app `{Countable K}
    (key : FirewallEventsAdaptiveGroup -> K)
    (events1 events2 : list FirewallEventsAdaptiveGroup) :
  count_by key (events1 ++ events2) =
  union_with (fun a b => Some (Int64.add a b))
    (count_by key events1) (count_by key events2).
Proof.
  apply map_eq. intros k.
  rewrite lookup_union_with, !count_by_lookup, has_key_app, key_total_app.
  destruct (has_key key k events1) eqn:H1, (has_key key k events2) eqn:H2;
    cbn [orb union_with option_union_with].
  - rewrite Int64Facts.add_unfold, Int64Facts.wrap_add_l, wrap_add_r.
    reflexivity.
  - rewrite (key_total_absent _ _ _ H2), Z.add_0_r. reflexivity.
  - rewrite (key_total_absent _ _ _ H1), Z.add_0_l. reflexivity.
  - reflexivity.
Qed.

(** X6. The three summaries the program prints (by action, by source, by
    country) add up to the same total modulo 2^64, and to exactly the same
    total when the counts are non-negative and their sum fits in an
    [int64]. *)
Theorem summaries_agree_on_total
    (events : list FirewallEventsAdaptiveGroup) :
  (sum_counts (actionCounts events) mod Int64.modulus =
     sum_counts (sourceCounts events) mod Int64.modulus /\
   sum_counts (sourceCounts events) mod Int64.modulus =
     sum_counts (countryCounts events) mod Int64.modulus) /\
  (Forall (fun event => 0 <= Count event) events ->
   total_count events <= Int64.max_int ->
   sum_counts (actionCounts events) = total_count events /\
   sum_counts (sourceCounts events) = total_count events /\
   sum_counts (countryCounts events) = total_count events).
Proof.
  unfold actionCounts, sourceCounts, countryCounts, count_by. split.
  - rewrite !fold_sum_counts_mod. split; reflexivity.
  - intros Hpos Hmax.
    assert (Hmax' : sum_counts (∅ : gmap string Z) + total_count events
                    <= Int64.max_int)
      by (rewrite sum_counts_empty; exact Hmax).
    assert (Hempty : nonneg_counts (∅ : gmap string Z))
      by (intros k v; rewrite lookup_empty; discriminate).
    rewrite !fold_sum_counts_exact by assumption.
    rewrite sum_counts_empty. repeat split; reflexivity.
Qed.

Lemma summaries_agree_on_total_witness :
  sum_counts (actionCounts sample_events) = total_count sample_events /\
  sum_counts (sourceCounts sample_events) = total_count sample_events /\
  sum_counts (countryCounts sample_events) = total_count sample_events.
Proof.
  apply (proj2 (summaries_agree_on_total sample_events)).
  - repeat constructor; vm_compute; discriminate.
  - vm_compute. discriminate.
Defined.

Lemma distinct_keys_lookup `{Countable K}
    (key : FirewallEventsAdaptiveGroup -> K)
    (events : list FirewallEventsAdaptiveGroup) (k : K) :
  NoDup (key <$> events) ->
  Forall (fun event => Int64.in_range (Count event)) events ->
  (if has_key key k events
   then Some (Int64.wrap (key_total key k events)) else None) =
  (list_to_map ((fun event => (key event, Count event)) <$> events)
     : gmap K Z) !! k.
Proof.
  induction events as [|e events IH]; intros Hnd Hr.
  - simpl. rewrite lookup_empty. reflexivity.
  - rewrite fmap_cons in Hnd. apply NoDup_cons in Hnd as [Hnew Hnd].
    apply Forall_cons in Hr as [He Hr].
    rewrite fmap_cons, list_to_map_cons, has_key_cons, key_total_cons.
    rewrite lookup_insert.
    destruct (decide (key e = k)) as [E|N].
    + subst k. rewrite <- has_key_true in Hnew.
      apply not_true_is_false in Hnew.
      rewrite (key_total_absent _ _ _ Hnew), Z.add_0_r.
      rewrite Int64Facts.wrap_id by exact He. reflexivity.
    + apply IH; assumption.
Qed.

(** X7. Rows whose keys are pairwise distinct pass through a summary
    unchanged: each key is mapped to the count of its own row. *)
Theorem count_by_distinct_keys `{Countable K}
    (key : FirewallEventsAdaptiveGroup -> K)
    (events : list FirewallEventsAdaptiveGroup) :
  NoDup (key <$> events) ->
  Forall (fun event => Int64.in_range (Count event)) events ->
  count_by key events =
  list_to_map ((fun event => (key event, Count event)) <$> events).
Proof.
  intros Hnd Hr. apply map_eq. intros k.
  rewrite count_by_lookup. apply distinct_keys_lookup; assumption.
Qed.

Lemma count_by_distinct_keys_witness :
  countryCounts tied_events =
  list_to_map
    ((fun event => (ClientCountryName (Dimensions event), Count event))
       <$> tied_events).
Proof.
  apply (count_by_distinct_keys
           (fun event => ClientCountryName (Dimensions event)) tied_events).
  - apply (bool_decide_unpack _). vm_compute. exact I.
  - repeat constructor; vm_compute; discriminate.
Defined.

Section SortedInput.
Implicit Types (x y : countryCount) (pre suf rest l : list countryCount).

Lemma sift_dominated x rest :
  Forall (count_ge x) rest -> sift x rest = (x, rest).
Proof.
  induction 1 as [|y rest Hy _ IH]; [reflexivity|].
  cbn [sift]. unfold count_ge in Hy.
  destruct (count y >? count x) eqn:C.
  - apply Z.gtb_lt in C. lia.
  - rewrite IH. reflexivity.
Qed.

Lemma outer_loop_sorted_input n : forall pre suf,
  length suf = n -> StronglySorted count_ge suf ->
  outer_loop n (pre ++ suf) (length pre) = pre ++ suf.
Proof.
  induction n as [|n IH]; intros pre suf Hlen Hs; [reflexivity|].
  destruct suf as [|x rest]; [discriminate|]. injection Hlen as Hlen.
  apply StronglySorted_inv in Hs as [Hs Hx].
  cbn [outer_loop].
  replace (length (pre ++ x :: rest) - S (length pre))%nat
    with (length rest) by (rewrite length_app; simpl; lia).
  pose proof (inner_loop_sift rest pre x []) as Hin.
  cbn [app length] in Hin. rewrite Nat.add_0_r in Hin.
  rewrite Hin, (sift_dominated x rest Hx). cbn [fst snd].
  replace (S (length pre)) with (length (pre ++ [x]))
    by (rewrite length_app; simpl; lia).
  replace (pre ++ x :: rest) with ((pre ++ [x]) ++ rest)
    by (rewrite <- app_assoc; reflexivity).
  apply IH; assumption.
Qed.

Lemma bubble_sort_sorted_input l :
  StronglySorted count_ge l -> bubble_sort l = l.
Proof.
  intros Hs. unfold bubble_sort.
  apply (outer_loop_sorted_input (length l) [] l eq_refl Hs).
Qed.

Lemma sorted_app_dominates l1 l2 :
  StronglySorted count_ge (l1 ++ l2) ->
  Forall (fun p => Forall (count_ge p) l2) l1.
Proof.
  induction l1 as [|x l1 IH]; intros Hs; [constructor|].
  cbn [app] in Hs. apply StronglySorted_inv in Hs as [Hs Hx].
  constructor; [|apply IH; exact Hs].
  apply Forall_app in Hx as [_ Hx]. exact Hx.
Qed.

Lemma top10_take l : top10 l = take 10 l.
Proof.
  unfold top10. destruct (10 <? length l)%nat eqn:C; [reflexivity|].
  apply Nat.ltb_ge in C. rewrite !take_ge by lia. reflexivity.
Qed.
End SortedInput.

(** X8. The sort leaves a slice that is already in non-increasing order of
    count exactly as it is (no entry moves, ties included); in particular
    sorting twice is the same as sorting once. *)
Theorem bubble_sort_keeps_sorted_input (countries : list countryCount) :
  bubble_sort (bubble_sort countries) = bubble_sort countries /\
  (StronglySorted count_ge countries -> bubble_sort countries = countries).
Proof.
  split.
  - apply bubble_sort_sorted_input, bubble_sort_sorted.
  - apply bubble_sort_sorted_input.
Qed.

Lemma bubble_sort_keeps_sorted_input_witness :
  bubble_sort (collect map_to_list (countryCounts tied_events)) =
  collect map_to_list (countryCounts tied_events).
Proof.
  apply (proj2 (bubble_sort_keeps_sorted_input
                  (collect map_to_list (countryCounts tied_events)))).
  vm_compute. repeat constructor; discriminate.
Defined.

Section CountSequence.

Lemma sorted_counts_unique (l1 : list Z) : forall l2,
  l1 ≡ₚ l2 ->
  StronglySorted Z.ge l1 -> StronglySorted Z.ge l2 -> l1 = l2.
Proof.
  induction l1 as [|x l1 IH]; intros l2 Hp S1 S2.
  - apply Permutation_nil_l in Hp. exact Hp.
  - destruct l2 as [|y l2].
    { apply Permutation_nil_r in Hp. discriminate. }
    apply StronglySorted_inv in S1 as [S1 F1].
    apply StronglySorted_inv in S2 as [S2 F2].
    assert (Hx : x ∈ y :: l2) by (rewrite <- Hp; left).
    assert (Hy : y ∈ x :: l1) by (rewrite Hp; left).
    rewrite Forall_forall in F1, F2.
    assert (x = y) as ->.
    { apply elem_of_cons in Hx as [Hx|Hx]; [exact Hx|].
      apply elem_of_cons in Hy as [Hy|Hy]; [symmetry; exact Hy|].
      specialize (F1 _ Hy). specialize (F2 _ Hx). lia. }
    f_equal. apply IH; [|exact S1|exact S2].
    apply (Permutation_cons_inv Hp).
Qed.

Lemma sorted_counts (l : list countryCount) :
  StronglySorted count_ge l -> StronglySorted Z.ge (count <$> l).
Proof.
  induction 1 as [|x l Hs IH Hx]; [constructor|].
  rewrite fmap_cons. constructor; [exact IH|].
  apply Forall_fmap. eapply Forall_impl; [exact Hx|].
  intros y Hy. unfold count_ge in Hy. simpl. lia.
Qed.

Lemma bubble_sort_counts (l1 l2 : list countryCount) :
  l1 ≡ₚ l2 -> count <$> bubble_sort l1 = count <$> bubble_sort l2.
Proof.
  intros Hp. apply sorted_counts_unique.
  - apply fmap_Permutation. rewrite !bubble_sort_permutation. exact Hp.
  - apply sorted_counts, bubble_sort_sorted.
  - apply sorted_counts, bubble_sort_sorted.
Qed.
End CountSequence.

(** X9. The sequence of counts printed in the top-10 section does not
    depend on the order in which the map is ranged over: two runs over the
    same grouped counts print the same counts line by line, so only the
    labels of equal counts can change places. *)
Theorem topCountries_counts_order_independent
    (order1 order2 : gmap string Z -> list (string * Z))
    (events : list FirewallEventsAdaptiveGroup) :
  order1 (countryCounts events) ≡ₚ order2 (countryCounts events) ->
  count <$> topCountries order1 events = count <$> topCountries order2 events.
Proof.
  intros Hp. unfold topCountries. rewrite !top10_take, !fmap_take. f_equal.
  apply bubble_sort_counts, collect_permutation. exact Hp.
Qed.

Lemma topCountries_counts_order_independent_witness :
  count <$> topCountries map_to_list tied_events =
  count <$> topCountries reverse_order tied_events.
Proof.
  apply (topCountries_counts_order_independent map_to_list reverse_order
           tied_events).
  apply Permutation_rev.
Defined.

(** X10. The top-10 section prints at most ten lines, and every entry it
    prints has a count at least as large as every entry it leaves out;
    printed and left-out entries together are the collected entries. *)
Theorem top10_dominates_rest (countries : list countryCount) :
  length (top10 (bubble_sort countries)) = Nat.min 10 (length countries) /\
  top10 (bubble_sort countries) ++ drop 10 (bubble_sort countries)
    ≡ₚ countries /\
  Forall (fun printed =>
            Forall (fun left_out => count left_out <= count printed)
                   (drop 10 (bubble_sort countries)))
         (top10 (bubble_sort countries)).
Proof.
  rewrite top10_take. split; [|split].
  - rewrite length_take, (Permutation_length (bubble_sort_permutation _)).
    lia.
  - rewrite take_drop. apply bubble_sort_permutation.
  - apply sorted_app_dominates. rewrite take_drop. apply bubble_sort_sorted.
Qed.

Lemma collect_countries order (counts : gmap string Z) :
  country <$> collect order counts = (order counts).*1.
Proof.
  unfold collect. generalize (order counts) as l.
  induction l as [|kv l IH]; [reflexivity|].
  cbn [List.map fmap list_fmap]. f_equal. exact IH.
Qed.

(** X11. When the map is ranged over entry by entry, every line of the
    top-10 section is an entry of the by-country summary (the label with
    the count the summary holds for it), and no label is printed twice. *)
Theorem topCountries_lines_are_summary_entries
    (order : gmap string Z -> list (string * Z))
    (events : list FirewallEventsAdaptiveGroup) :
  order (countryCounts events) ≡ₚ map_to_list (countryCounts events) ->
  NoDup (country <$> topCountries order events) /\
  Forall (fun line => countryCounts events !! country line = Some (count line))
         (topCountries order events).
Proof.
  intros Hp. unfold topCountries. rewrite top10_take.
  set (m := countryCounts events) in *.
  pose proof (collect_countries order m) as Hc.
  split.
  - assert (Hsub : country <$> take 10 (bubble_sort (collect order m))
                    `sublist_of` country <$> bubble_sort (collect order m))
      by apply fmap_sublist, sublist_take.
    refine (sublist_NoDup _ _ _ Hsub).
    rewrite (bubble_sort_permutation (collect order m)), Hc, Hp.
    apply NoDup_fst_map_to_list.
  - apply Forall_forall. intros line Hin.
    apply subseteq_take in Hin.
    rewrite (bubble_sort_permutation (collect order m)) in Hin.
    unfold collect in Hin. apply list_elem_of_In, in_map_iff in Hin.
    destruct Hin as ([k v] & <- & Hkv). cbn [country count fst snd].
    apply list_elem_of_In in Hkv. rewrite Hp in Hkv.
    apply elem_of_map_to_list in Hkv. exact Hkv.
Qed.

Lemma topCountries_lines_are_summary_entries_witness :
  NoDup (country <$> topCountries reverse_order sample_events) /\
  Forall (fun line =>
            countryCounts sample_events !! country line = Some (count line))
         (topCountries reverse_order sample_events).
Proof.
  apply (topCountries_lines_are_summary_entries reverse_order sample_events).
  symmetry. apply Permutation_rev.
Defined.



Lemma Format_RFC3339_ten_hours_back now :
  Format_RFC3339 (now + (-10) * Hour) = VTimeRFC3339 (now / Second - 36000).
Proof.
  unfold Format_RFC3339. f_equal.
  replace (now + (-10) * Hour) with (now + (-36000) * Second)
    by (unfold Hour; lia).
  rewrite Z.div_add by (pose proof Second_pos; lia). lia.
Qed.



(** X14. [main] ends with exit code 0 or 1, and with 0 exactly when the
    token and the zone id are set, the fetch succeeds and either the
    response has no zone entry or the groups of its first zone entry can be
    pretty-printed. *)
Theorem main_exit_code rt token zoneID DEBUG now :
  (code (main rt token zoneID DEBUG now) = 0 \/
   code (main rt token zoneID DEBUG now) = 1) /\
  (code (main rt token zoneID DEBUG now) = 0 <->
   token <> ""%string /\ zoneID <> ""%string /\
   exists result,
     (GetFirewallEvents rt {| apiToken := token |} zoneID
        (now + (-10) * Hour) now (bool_decide (DEBUG = "true"%string)) 0).1
       = Ok result /\
     match Zones result with
     | [] => True
     | zone :: _ =>
       json_MarshalIndent rt (FirewallEventsAdaptiveGroups zone) <> None
     end).
Proof.
  unfold main.
  destruct (decide (token = ""%string)) as [Et|Nt].
  { rewrite (bool_decide_eq_true_2 _ Et). cbn [code]. split; [right; reflexivity|].
    split; [discriminate|]. intros (Hn & _). contradiction. }
  rewrite (bool_decide_eq_false_2 _ Nt).
  destruct (decide (zoneID = ""%string)) as [Ez|Nz].
  { rewrite (bool_decide_eq_true_2 _ Ez). cbn [code]. split; [right; reflexivity|].
    split; [discriminate|]. intros (_ & Hn & _). contradiction. }
  rewrite (bool_decide_eq_false_2 _ Nz).
  destruct (GetFirewallEvents rt _ zoneID _ now _ 0) as [[result|e] n].
  - cbn [code fst]. unfold report. destruct result as [zones]. cbn [Zones].
    destruct zones as [|zone rest].
    + cbn [code]. split; [left; reflexivity|].
      split; [|reflexivity]. intros _. split; [exact Nt|]. split; [exact Nz|].
      exists {| Zones := [] |}. split; [reflexivity|exact I].
    + destruct (json_MarshalIndent rt (FirewallEventsAdaptiveGroups zone))
        as [pretty|] eqn:Hp; cbn [code].
      * split; [left; reflexivity|]. split; [|reflexivity].
        intros _. split; [exact Nt|]. split; [exact Nz|].
        exists {| Zones := zone :: rest |}. split; [reflexivity|].
        cbn [Zones]. rewrite Hp. discriminate.
      * split; [right; reflexivity|]. split; [discriminate|].
        intros (_ & _ & result & [= <-] & Hz). cbn [Zones] in Hz.
        rewrite Hp in Hz. contradiction.
  - cbn [code fst]. split; [right; reflexivity|]. split; [discriminate|].
    intros (_ & _ & result & Hr & _). discriminate.
Qed.
